(** * Movie API resolvers: a shallow embedding of the AppSync mapping templates

    The stack (src/lib/aws-movie-app-backend-stack.ts, and the later revision
    src/unnamed/part_000) attaches five resolvers to one DynamoDB table.  Each
    resolver is a pair of VTL templates: the request template builds a
    DynamoDB operation from the GraphQL arguments and the caller identity, the
    data source runs it on the table, and the response template turns the
    outcome into a GraphQL result or an error.

    The embedding follows that pipeline:
    - [Request] is the operation document a request template renders;
    - [exec] is the DynamoDB data source: a function on the table state;
    - every response template is a function of the context [Ctx];
    - [resolve] composes the three. *)

From Stdlib Require Import ZArith.
From stdpp Require Import gmap strings list fin_maps.

Local Open Scope string_scope.
Local Open Scope Z_scope.
Local Open Scope list_scope.

(** ** Data model *)

(** A DynamoDB attribute value, with its type tag ([S], [N], [NULL]). *)
Inductive AttrValue :=
  | AttrS (s : string)
  | AttrN (n : Z)
  | AttrNULL.

#[global] Instance AttrValue_eq_dec : EqDecision AttrValue.
Proof. solve_decision. Defined.

(** An item is a finite map from attribute names to values; the table maps
    the partition key ([id]) to the item stored under it. *)
Abbreviation Item := (gmap string AttrValue).
Abbreviation Table := (gmap string Item).

(** [$ctx.identity]: [sub], [claims.email] and [claims["cognito:groups"]]
    (absent for a user in no group). *)
Record Identity := {
  sub : string;
  email : string;
  groups : option (list string)
}.

(** [$util.dynamodb.toDynamoDBJson] on a (nullable) string and on a
    (nullable) integer. *)
Definition toDynamoDBJson (v : option string) : AttrValue :=
  match v with Some s => AttrS s | None => AttrNULL end.

Definition toDynamoDBJsonInt (v : option Z) : AttrValue :=
  match v with Some n => AttrN n | None => AttrNULL end.

(** GraphQL arguments, as src/graphql/schema.graphql types them. *)
Record CreateArgs := {
  c_title : string;
  c_publishingYear : Z;
  c_poster : option string
}.

Record UpdateArgs := {
  u_id : string;
  u_title : option string;
  u_publishingYear : option Z;
  u_poster : option string
}.

Record ListArgs := {
  l_limit : option Z;
  l_nextToken : option string
}.

(** ** Operation documents *)

(** An expression with placeholders: [expression] lists the pairs
    [attribute = :placeholder] of the expression string, [expressionValues]
    binds the placeholders. *)
Record Expression := {
  expression : list (string * string);
  expressionValues : list (string * AttrValue)
}.

Inductive Condition :=
  | attribute_exists (attr : string).

Inductive Request :=
  | GetItem (key : string)
  | PutItem (key : string) (attributeValues : list (string * AttrValue))
  | UpdateItem (key : string) (update : Expression) (condition : option Condition)
  | DeleteItem (key : string)
  | Scan (limit : Z) (filter : option Expression) (nextToken : option string)
  | Query (index : string) (query : Expression) (limit : Z) (nextToken : option string).

(** [$ctx.error] and [$ctx.result]. *)
Record DsError := {
  err_message : string;
  err_type : string
}.

Inductive DsResult :=
  | RNull
  | RItem (item : Item)
  | RPage (items : list Item) (nextToken : option string).

Record Ctx := {
  identity : Identity;
  error : option DsError;
  result : DsResult
}.

(** The JSON a response template renders: [$util.toJson($ctx.result)] for a
    single item, or the connection object [{"items": .., "nextToken": ..}] of
    the list resolver (either field may be null). *)
Inductive Json :=
  | JNull
  | JItem (item : Item)
  | JConnection (items : option (list Item)) (nextToken : option string).

(** What a resolver hands back: the rendered JSON, or [$util.error]. *)
Inductive Response :=
  | Ok (json : Json)
  | Error (message : string) (errorType : string).

#[global] Instance DsResult_eq_dec : EqDecision DsResult.
Proof. solve_decision. Defined.

#[global] Instance Json_eq_dec : EqDecision Json.
Proof. solve_decision. Defined.

#[global] Instance Response_eq_dec : EqDecision Response.
Proof. solve_decision. Defined.

(** ** The DynamoDB data source *)

Definition placeholder (e : Expression) (name : string) : option AttrValue :=
  (list_to_map (expressionValues e) : gmap string AttrValue) !! name.

(** [SET a1 = :p1, a2 = :p2, ...]: the listed attributes are overwritten, from
    left to right; every other attribute of the item is kept. *)
Definition apply_set (e : Expression) (item : Item) : Item :=
  foldl (λ acc '(attr, ph),
           match placeholder e ph with
           | Some v => <[attr := v]> acc
           | None => acc
           end) item (expression e).

(** [a1 = :p1 AND ...] on an item: DynamoDB equality compares type and value. *)
Definition matches (e : Expression) (item : Item) : bool :=
  forallb (λ '(attr, ph),
             match placeholder e ph with
             | Some v => bool_decide (item !! attr = Some v)
             | None => false
             end) (expression e).

Definition holds (c : Condition) (current : option Item) : bool :=
  match c, current with
  | attribute_exists attr, Some item => bool_decide (is_Some (item !! attr))
  | attribute_exists _, None => false
  end.

Definition ConditionalCheckFailed : DsError :=
  {| err_message := "The conditional request failed";
     err_type := "DynamoDB:ConditionalCheckFailedException" |}.

Definition ValidationFailed : DsError :=
  {| err_message := "Invalid request";
     err_type := "DynamoDB:DynamoDbException" |}.

(** The rows that follow the continuation token in listing order.  The token
    is the key of the last row the previous page evaluated. *)
Fixpoint after_key (k : string) (rows : list (string * Item)) : list (string * Item) :=
  match rows with
  | [] => []
  | r :: rest => if String.eqb (fst r) k then rest else after_key k rest
  end.

Definition after_token (tok : option string) (rows : list (string * Item))
  : list (string * Item) :=
  match tok with
  | None => rows
  | Some k => after_key k rows
  end.

(** One page over [rows]: evaluate at most [n] rows after the token, keep
    those that pass [keep], and hand out a token when the limit stopped the
    evaluation. *)
Definition page (n : nat) (keep : Item → bool) (tok : option string)
    (rows : list (string * Item)) : list Item * option string :=
  let rest := after_token tok rows in
  let window := take n rest in
  (List.filter keep (snd <$> window),
   if (n <=? length rest)%nat then fst <$> last window else None).

Definition filter_of (f : option Expression) : Item → bool :=
  match f with
  | Some e => matches e
  | None => λ _, true
  end.

(** Global secondary indexes of the table: index name and partition key. *)
Abbreviation Indexes := (list (string * string)).

Definition index_key (gsis : Indexes) (name : string) : option string :=
  snd <$> List.find (λ ix, String.eqb (fst ix) name) gsis.

(** An index holds the items that carry its key attribute as a string. *)
Definition indexed (pk : string) (item : Item) : bool :=
  match item !! pk with
  | Some (AttrS _) => true
  | _ => false
  end.

(** One operation on the table, as the AppSync DynamoDB data source runs it;
    the answer fills [$ctx.error] and [$ctx.result].
    - [GetItem] returns the item, or null when the key is absent.
    - [PutItem] writes the key and the attribute values as the whole item
      (replacing any item under that key) and returns what it wrote.
    - [UpdateItem] checks the condition against the current item; on failure
      nothing is written and the error has type
      ["DynamoDB:ConditionalCheckFailedException"]; on success the SET
      expression is applied and the new item returned.
    - [DeleteItem] removes the key and returns the item that was there, or
      null.
    - [Scan] evaluates at most [limit] rows after the token and returns those
      that pass the filter: the limit bounds the rows read, not the rows
      returned.
    - [Query] does the same over the rows of a global secondary index that
      match the key condition.
    Rows are listed in the order of [map_to_list]: fixed for a given table,
    and of no meaning.  A limit below 1 is rejected.  A page ends at the
    limit only: the cap the service puts on the data read for one page is not
    part of this model, and neither are its transient faults. *)
Definition exec (gsis : Indexes) (t : Table) (rq : Request)
  : Table * option DsError * DsResult :=
  match rq with
  | GetItem k =>
      (t, None, from_option RItem RNull (t !! k))
  | PutItem k attrs =>
      let item : Item := <["id" := AttrS k]> (list_to_map attrs) in
      (<[k := item]> t, None, RItem item)
  | UpdateItem k upd cond =>
      if from_option (λ c, holds c (t !! k)) true cond then
        let item := apply_set upd (default {["id" := AttrS k]} (t !! k)) in
        (<[k := item]> t, None, RItem item)
      else (t, Some ConditionalCheckFailed, RNull)
  | DeleteItem k =>
      (delete k t, None, from_option RItem RNull (t !! k))
  | Scan lim f tok =>
      if lim <=? 0 then (t, Some ValidationFailed, RNull)
      else
        let '(items, next) := page (Z.to_nat lim) (filter_of f) tok (map_to_list t) in
        (t, None, RPage items next)
  | Query ix q lim tok =>
      match index_key gsis ix with
      | Some pk =>
          if (lim <=? 0) || negb (bool_decide (fst <$> expression q = [pk]))
          then (t, Some ValidationFailed, RNull)
          else
            let rows := List.filter (λ r, indexed pk (snd r) && matches q (snd r))
                                    (map_to_list t) in
            let '(items, next) := page (Z.to_nat lim) (λ _, true) tok rows in
            (t, None, RPage items next)
      | None => (t, Some ValidationFailed, RNull)
      end
  end.

(** ** VTL helpers *)

(** [#if($x)] on [$ctx.result]: null is false. *)
Definition truthy (r : DsResult) : bool :=
  match r with RNull => false | _ => true end.

(** [$util.toJson($ctx.result)]. *)
Definition toJson (r : DsResult) : Json :=
  match r with
  | RNull => JNull
  | RItem item => JItem item
  | RPage items next => JConnection (Some items) next
  end.

(** [$ctx.result.items] and [$ctx.result.nextToken]. *)
Definition result_items (r : DsResult) : option (list Item) :=
  match r with RPage items _ => Some items | _ => None end.

Definition result_nextToken (r : DsResult) : option string :=
  match r with RPage _ next => next | _ => None end.

(** [$ctx.result.<attr>]: a property of the returned item, null otherwise. *)
Definition result_attr (r : DsResult) (attr : string) : option AttrValue :=
  match r with RItem item => item !! attr | _ => None end.

(** [$ctx.result.createdBy == $ctx.identity.sub].  The attribute is written
    by createMovie only, as a string. *)
Definition vtl_eq (v : option AttrValue) (s : string) : bool :=
  match v with
  | Some (AttrS x) => String.eqb x s
  | _ => false
  end.

(** The group loop the get, update and delete response templates share:
<<
    #set($isAdmin = false)
    #if($ctx.identity.claims["cognito:groups"])
      #foreach($group in $ctx.identity.claims["cognito:groups"])
        #if($group == "Admins") #set($isAdmin = true) #end
      #end
    #end
>> *)
Definition isAdmin (i : Identity) : bool :=
  match groups i with
  | Some gs =>
      foldl (λ isAdmin group, if String.eqb group "Admins" then true else isAdmin)
            false gs
  | None => false
  end.

(** The test of the list request template:
    [$groups && $groups.contains("Admins")]. *)
Definition inAdmins (i : Identity) : bool :=
  match groups i with
  | Some gs => existsb (String.eqb "Admins") gs
  | None => false
  end.

(** ** The resolvers both revisions share *)

Definition GetMovieResolver_request (id : string) : Request :=
  GetItem id.

Definition GetMovieResolver_response (ctx : Ctx) : Response :=
  match error ctx with
  | Some e => Error (err_message e) (err_type e)
  | None =>
      if negb (truthy (result ctx)) then Error "Movie not found" "NotFound"
      else if vtl_eq (result_attr (result ctx) "createdBy") (sub (identity ctx))
                || isAdmin (identity ctx)
      then Ok (toJson (result ctx))
      else Error "Unauthorized to view this movie" "Unauthorized"
  end.

(** [autoId] stands for the value [$util.autoId()] draws. *)
Definition CreateMovieResolver_request (i : Identity) (autoId : string)
    (args : CreateArgs) : Request :=
  PutItem autoId
    [("title", toDynamoDBJson (Some (c_title args)));
     ("publishingYear", toDynamoDBJsonInt (Some (c_publishingYear args)));
     ("poster", toDynamoDBJson (c_poster args));
     ("createdBy", toDynamoDBJson (Some (sub i)));
     ("createdByEmail", toDynamoDBJson (Some (email i)))].

Definition CreateMovieResolver_response (ctx : Ctx) : Response :=
  match error ctx with
  | Some e => Error (err_message e) (err_type e)
  | None => Ok (toJson (result ctx))
  end.

Definition UpdateMovieResolver_request (args : UpdateArgs) : Request :=
  UpdateItem (u_id args)
    {| expression :=
         [("title", ":title"); ("publishingYear", ":year"); ("poster", ":poster")];
       expressionValues :=
         [(":title", toDynamoDBJson (u_title args));
          (":year", toDynamoDBJsonInt (u_publishingYear args));
          (":poster", toDynamoDBJson (u_poster args))] |}
    (Some (attribute_exists "id")).

Definition UpdateMovieResolver_response (ctx : Ctx) : Response :=
  match error ctx with
  | Some e =>
      if String.eqb (err_type e) "DynamoDB:ConditionalCheckFailedException"
      then Error "Movie not found" "NotFound"
      else Error (err_message e) (err_type e)
  | None =>
      if vtl_eq (result_attr (result ctx) "createdBy") (sub (identity ctx))
           || isAdmin (identity ctx)
      then Ok (toJson (result ctx))
      else Error "Unauthorized to update this movie" "Unauthorized"
  end.

Definition DeleteMovieResolver_request (id : string) : Request :=
  DeleteItem id.

Definition DeleteMovieResolver_response (ctx : Ctx) : Response :=
  match error ctx with
  | Some e => Error (err_message e) (err_type e)
  | None =>
      if negb (truthy (result ctx)) then Error "Movie not found" "NotFound"
      else if vtl_eq (result_attr (result ctx) "createdBy") (sub (identity ctx))
                || isAdmin (identity ctx)
      then Ok (toJson (result ctx))
      else Error "Unauthorized to delete this movie" "Unauthorized"
  end.

(** A resolver call: render the request, run it, render the response. *)
Definition resolve (gsis : Indexes) (rq : Request) (response : Ctx → Response)
    (i : Identity) (t : Table) : Table * Response :=
  let '(t', e, r) := exec gsis t rq in
  (t', response {| identity := i; error := e; result := r |}).

Section Operations.
Variable gsis : Indexes.

Definition getMovie (i : Identity) (id : string) (t : Table) : Table * Response :=
  resolve gsis (GetMovieResolver_request id) GetMovieResolver_response i t.

Definition createMovie (i : Identity) (autoId : string) (args : CreateArgs)
    (t : Table) : Table * Response :=
  resolve gsis (CreateMovieResolver_request i autoId args)
          CreateMovieResolver_response i t.

Definition updateMovie (i : Identity) (args : UpdateArgs) (t : Table)
  : Table * Response :=
  resolve gsis (UpdateMovieResolver_request args) UpdateMovieResolver_response i t.

Definition deleteMovie (i : Identity) (id : string) (t : Table) : Table * Response :=
  resolve gsis (DeleteMovieResolver_request id) DeleteMovieResolver_response i t.
End Operations.

(** ** The list resolver, in its two revisions *)

(** The expression both revisions use to select the caller's records:
    ["createdBy = :user"] with [:user] bound to the caller's [sub]. *)
Definition owner_expression (user : string) : Expression :=
  {| expression := [("createdBy", ":user")];
     expressionValues := [(":user", toDynamoDBJson (Some user))] |}.

(** src/lib/aws-movie-app-backend-stack.ts: the table has no index; a
    non-admin listing is a Scan of the whole table with a filter. *)
Module FilteredScan.
Definition globalSecondaryIndexes : Indexes := [].

Definition owned_request (user : string) (limit : Z) (tok : option string) : Request :=
  Scan limit (Some (owner_expression user)) tok.

Definition ListMoviesResolver_request (i : Identity) (args : ListArgs) : Request :=
  let limit := default 11 (l_limit args) in
  if inAdmins i then Scan limit None (l_nextToken args)
  else owned_request (sub i) limit (l_nextToken args).

Definition ListMoviesResolver_response (ctx : Ctx) : Response :=
  match error ctx with
  | Some e => Error (err_message e) (err_type e)
  | None =>
      match result_items (result ctx) with
      | None => Ok (JConnection (Some []) None)
      | Some items =>
          if (length items =? 0)%nat then Ok (JConnection (Some []) None)
          else Ok (JConnection (Some items) (result_nextToken (result ctx)))
      end
  end.

Definition listMovies (i : Identity) (args : ListArgs) (t : Table)
  : Table * Response :=
  resolve globalSecondaryIndexes (ListMoviesResolver_request i args)
          ListMoviesResolver_response i t.
End FilteredScan.

(** src/unnamed/part_000: the table has the index [CreatedByIndex] on
    [createdBy]; a non-admin listing is a Query on it. *)
Module IndexQuery.
Definition globalSecondaryIndexes : Indexes := [("CreatedByIndex", "createdBy")].

Definition owned_request (user : string) (limit : Z) (tok : option string) : Request :=
  Query "CreatedByIndex" (owner_expression user) limit tok.

Definition ListMoviesResolver_request (i : Identity) (args : ListArgs) : Request :=
  let limit := default 10 (l_limit args) in
  if inAdmins i then Scan limit None (l_nextToken args)
  else owned_request (sub i) limit (l_nextToken args).

Definition ListMoviesResolver_response (ctx : Ctx) : Response :=
  match error ctx with
  | Some e => Error (err_message e) (err_type e)
  | None =>
      Ok (JConnection (result_items (result ctx)) (result_nextToken (result ctx)))
  end.

Definition listMovies (i : Identity) (args : ListArgs) (t : Table)
  : Table * Response :=
  resolve globalSecondaryIndexes (ListMoviesResolver_request i args)
          ListMoviesResolver_response i t.
End IndexQuery.

(** ** Exhausting a listing *)

(** One page of a listing operation, straight from the data source. *)
Definition fetch (gsis : Indexes) (t : Table) (rq : Request)
  : option (list Item * option string) :=
  match exec gsis t rq with
  | (_, None, RPage items next) => Some (items, next)
  | _ => None
  end.

(** Follow the continuation token until the data source returns none; [fuel]
    bounds the number of pages. *)
Fixpoint exhaust (fuel : nat) (gsis : Indexes) (t : Table)
    (rq : option string → Request) (tok : option string) : option (list Item) :=
  match fuel with
  | O => None
  | S fuel' =>
      match fetch gsis t (rq tok) with
      | Some (items, None) => Some items
      | Some (items, Some k) => (items ++.) <$> exhaust fuel' gsis t rq (Some k)
      | None => None
      end
  end.

(** The same loop on the rows themselves. *)
Fixpoint collect (fuel n : nat) (keep : Item → bool) (rows : list (string * Item))
    (tok : option string) : option (list Item) :=
  match fuel with
  | O => None
  | S fuel' =>
      match page n keep tok rows with
      | (items, None) => Some items
      | (items, Some k) => (items ++.) <$> collect fuel' n keep rows (Some k)
      end
  end.

(** What a client sees when it follows the tokens the resolver returns. *)
Fixpoint browse (fuel : nat) (listMovies : ListArgs → Response) (limit : option Z)
    (tok : option string) : option (list Item) :=
  match fuel with
  | O => None
  | S fuel' =>
      match listMovies {| l_limit := limit; l_nextToken := tok |} with
      | Ok (JConnection (Some items) None) => Some items
      | Ok (JConnection (Some items) (Some k)) =>
          (items ++.) <$> browse fuel' listMovies limit (Some k)
      | _ => None
      end
  end.

(** ** The two revisions side by side *)

Inductive Revision :=
  | Rev_FilteredScan
  | Rev_IndexQuery.

Definition indexes_of (rev : Revision) : Indexes :=
  match rev with
  | Rev_FilteredScan => FilteredScan.globalSecondaryIndexes
  | Rev_IndexQuery => IndexQuery.globalSecondaryIndexes
  end.

Definition default_limit (rev : Revision) : Z :=
  match rev with
  | Rev_FilteredScan => 11
  | Rev_IndexQuery => 10
  end.

Definition list_request (rev : Revision) : Identity → ListArgs → Request :=
  match rev with
  | Rev_FilteredScan => FilteredScan.ListMoviesResolver_request
  | Rev_IndexQuery => IndexQuery.ListMoviesResolver_request
  end.

Definition listMovies (rev : Revision) : Identity → ListArgs → Table → Table * Response :=
  match rev with
  | Rev_FilteredScan => FilteredScan.listMovies
  | Rev_IndexQuery => IndexQuery.listMovies
  end.

(** ** Sample data *)

Definition alice : Identity :=
  {| sub := "sub-alice"; email := "alice@example.com"; groups := None |}.

Definition bob : Identity :=
  {| sub := "sub-bob"; email := "bob@example.com"; groups := Some ["Users"] |}.

Definition root : Identity :=
  {| sub := "sub-root"; email := "root@example.com";
     groups := Some ["Users"; "Admins"] |}.

Definition inception_args : CreateArgs :=
  {| c_title := "Inception"; c_publishingYear := 2010; c_poster := None |}.

Definition inception : Item :=
  list_to_map
    [("id", AttrS "m1"); ("title", AttrS "Inception"); ("publishingYear", AttrN 2010);
     ("poster", AttrNULL); ("createdBy", AttrS "sub-alice");
     ("createdByEmail", AttrS "alice@example.com")].

Definition heat : Item :=
  list_to_map
    [("id", AttrS "m2"); ("title", AttrS "Heat"); ("publishingYear", AttrN 1995);
     ("poster", AttrNULL); ("createdBy", AttrS "sub-bob");
     ("createdByEmail", AttrS "bob@example.com")].

Definition one_movie : Table := {[ "m1" := inception ]}.

Definition two_movies : Table := <["m2" := heat]> one_movie.

(** ** Specification vocabulary *)

(** [InGroup g i]: the group claim of [i] is present and lists [g]. *)
Definition InGroup (g : string) (i : Identity) : Prop :=
  match groups i with
  | Some gs => g ∈ gs
  | None => False
  end.

(** The authorization rule of the spec. *)
Definition canAccess (i : Identity) (owner : string) : Prop :=
  InGroup "Admins" i ∨ sub i = owner.

(** The rows a Scan of [limit] rows evaluates after the token, whoever owns
    them. *)
Definition window (limit : Z) (tok : option string) (t : Table) : list Item :=
  snd <$> take (Z.to_nat limit) (after_token tok (map_to_list t)).

(** The rows of the index [CreatedByIndex] under the key [user]. *)
Definition owned_rows (user : string) (t : Table) : list (string * Item) :=
  List.filter (λ r, indexed "createdBy" r.2 && matches (owner_expression user) r.2)
              (map_to_list t).

(** What a list call pages over, and the filter it applies to the rows it
    evaluated: an admin scans the table unfiltered; another caller either
    scans the table with the owner filter or queries the owner's index rows. *)
Definition list_plan (rev : Revision) (i : Identity) (t : Table)
  : (Item → bool) * list (string * Item) :=
  if inAdmins i then (λ _, true, map_to_list t)
  else match rev with
       | Rev_FilteredScan => (matches (owner_expression (sub i)), map_to_list t)
       | Rev_IndexQuery => (λ _, true, owned_rows (sub i) t)
       end.


(** Attributes the update expression assigns. *)
Definition mutable_attrs : list string := ["title"; "publishingYear"; "poster"].

(** ** Calls and runs *)

(** The five operations of the API, each with the identity that calls it. *)
Inductive Call :=
  | CallList (i : Identity) (args : ListArgs)
  | CallGet (i : Identity) (id : string)
  | CallCreate (i : Identity) (autoId : string) (args : CreateArgs)
  | CallUpdate (i : Identity) (args : UpdateArgs)
  | CallDelete (i : Identity) (id : string).

Definition step (rev : Revision) (c : Call) (t : Table) : Table * Response :=
  match c with
  | CallList i args => listMovies rev i args t
  | CallGet i id => getMovie (indexes_of rev) i id t
  | CallCreate i autoId args => createMovie (indexes_of rev) i autoId args t
  | CallUpdate i args => updateMovie (indexes_of rev) i args t
  | CallDelete i id => deleteMovie (indexes_of rev) i id t
  end.

(** The table after a sequence of calls, first call first. *)
Definition run (rev : Revision) (cs : list Call) (t : Table) : Table :=
  foldl (λ acc c, (step rev c acc).1) t cs.

(** The key a call writes under, if it writes at all. *)
Definition target (c : Call) : option string :=
  match c with
  | CallList _ _ | CallGet _ _ => None
  | CallCreate _ autoId _ => Some autoId
  | CallUpdate _ args => Some (u_id args)
  | CallDelete _ id => Some id
  end.

(** The item the create request writes. *)
Definition new_record (i : Identity) (autoId : string) (args : CreateArgs) : Item :=
  <["id" := AttrS autoId]>
    (list_to_map
       [("title", toDynamoDBJson (Some (c_title args)));
        ("publishingYear", toDynamoDBJsonInt (Some (c_publishingYear args)));
        ("poster", toDynamoDBJson (c_poster args));
        ("createdBy", toDynamoDBJson (Some (sub i)));
        ("createdByEmail", toDynamoDBJson (Some (email i)))]).

(** The item the update request leaves in place of [R]. *)
Definition rewritten (args : UpdateArgs) (R : Item) : Item :=
  <["poster" := toDynamoDBJson (u_poster args)]>
    (<["publishingYear" := toDynamoDBJsonInt (u_publishingYear args)]>
       (<["title" := toDynamoDBJson (u_title args)]> R)).

(** A stored record carries its key as [id], and an owner and an owner
    email, both strings. *)
Definition record_wf (k : string) (R : Item) : Prop :=
  R !! "id" = Some (AttrS k)
  ∧ (∃ owner : string, R !! "createdBy" = Some (AttrS owner))
  ∧ (∃ mail : string, R !! "createdByEmail" = Some (AttrS mail)).

Definition table_wf (t : Table) : Prop :=
  ∀ (k : string) (R : Item), t !! k = Some R → record_wf k R.

(** The listing a client assembles from the resolver [rev] as [i]. *)
Definition browse_as (rev : Revision) (i : Identity) (t : Table) (fuel : nat)
    (limit : option Z) : option (list Item) :=
  browse fuel (λ a, (listMovies rev i a t).2) limit None.

(** More sample data. *)
Definition tenet_args : UpdateArgs :=
  {| u_id := "m1"; u_title := Some "Tenet"; u_publishingYear := Some 2020;
     u_poster := None |}.

(** * Properties *)

(** ** Group membership *)

Lemma admin_loop (gs : list string) (b : bool) :
  foldl (λ isAdmin group, if String.eqb group "Admins" then true else isAdmin) b gs
  = b || bool_decide ("Admins" ∈ gs).
Proof.
  revert b. induction gs as [|g gs IH]; intros b; cbn [foldl].
  - rewrite bool_decide_eq_false_2; [by rewrite orb_false_r | by apply not_elem_of_nil].
  - rewrite IH. destruct (String.eqb_spec g "Admins") as [->|Hne].
    + rewrite (bool_decide_eq_true_2 (_ ∈ _ :: _)); [|by left].
      by rewrite orb_true_r.
    + f_equal. apply bool_decide_ext. rewrite elem_of_cons. intuition congruence.
Qed.

Lemma isAdmin_InGroup (i : Identity) : isAdmin i = true ↔ InGroup "Admins" i.
Proof.
  unfold isAdmin, InGroup. destruct (groups i) as [gs|]; [|done].
  rewrite admin_loop. simpl. apply bool_decide_eq_true.
Qed.

Lemma inAdmins_InGroup (i : Identity) : inAdmins i = true ↔ InGroup "Admins" i.
Proof.
  unfold inAdmins, InGroup. destruct (groups i) as [gs|]; [|done].
  rewrite existsb_exists. split.
  - intros (g & Hin & Heq). apply String.eqb_eq in Heq as <-.
    by apply list_elem_of_In.
  - intros Hin. exists "Admins". split; [by apply list_elem_of_In | apply String.eqb_refl].
Qed.

(** Both membership tests of the templates decide the same thing. *)
Lemma inAdmins_isAdmin (i : Identity) : inAdmins i = isAdmin i.
Proof.
  apply eq_true_iff_eq. by rewrite isAdmin_InGroup, inAdmins_InGroup.
Qed.

Lemma owner_check (R : Item) (owner : string) (i : Identity) :
  R !! "createdBy" = Some (AttrS owner) →
  vtl_eq (result_attr (RItem R) "createdBy") (sub i) || isAdmin i = true
  ↔ canAccess i owner.
Proof.
  intros Hown. simpl. rewrite Hown. simpl.
  rewrite orb_true_iff, String.eqb_eq, isAdmin_InGroup.
  unfold canAccess. intuition congruence.
Qed.

Lemma owner_check_false (R : Item) (owner : string) (i : Identity) :
  R !! "createdBy" = Some (AttrS owner) →
  ¬ canAccess i owner →
  vtl_eq (result_attr (RItem R) "createdBy") (sub i) || isAdmin i = false.
Proof.
  intros Hown Hno. apply not_true_is_false. by rewrite owner_check.
Qed.

(** ** getMovie *)

(** A read never changes the table. *)
Lemma getMovie_pure gsis (i : Identity) (id : string) (t : Table) :
  (getMovie gsis i id t).1 = t.
Proof. reflexivity. Qed.

(** C1: for a stored record [R] (under key [k], owned by [owner]) and any
    identity [i], [getMovie k] returns [R] exactly when [i] is in the group
    "Admins" or [sub i] is the owner; in every other case it fails with kind
    "Unauthorized". *)
Theorem getMovie_authorization gsis (t : Table) (i : Identity) (k owner : string)
    (R : Item) :
  t !! k = Some R →
  R !! "createdBy" = Some (AttrS owner) →
  ((getMovie gsis i k t).2 = Ok (JItem R) ↔ canAccess i owner) ∧
  (¬ canAccess i owner →
   (getMovie gsis i k t).2 = Error "Unauthorized to view this movie" "Unauthorized").
Proof.
  intros Hk Hown.
  unfold getMovie, resolve, GetMovieResolver_request, GetMovieResolver_response.
  cbn [exec fst snd error result identity]. rewrite Hk. cbn [from_option truthy negb].
  destruct (vtl_eq _ _ || _) eqn:Hchk.
  - apply (owner_check R owner i Hown) in Hchk. split; [done|]. by intros [].
  - split; [|done]. split; [done|].
    intros Hacc. apply (owner_check R owner i Hown) in Hacc. congruence.
Qed.

Lemma getMovie_authorization_witness :
  (getMovie [] bob "m1" one_movie).2
  = Error "Unauthorized to view this movie" "Unauthorized"
  ∧ (getMovie [] alice "m1" one_movie).2 = Ok (JItem inception)
  ∧ (getMovie [] root "m1" one_movie).2 = Ok (JItem inception).
Proof.
  split; [|split].
  - apply (getMovie_authorization [] one_movie bob "m1" "sub-alice" inception);
      [reflexivity | reflexivity |].
    unfold canAccess, InGroup. simpl. intros [H|H]; [|discriminate].
    apply list_elem_of_In in H. simpl in H. intuition discriminate.
  - apply (getMovie_authorization [] one_movie alice "m1" "sub-alice" inception);
      [reflexivity | reflexivity |]. by right.
  - apply (getMovie_authorization [] one_movie root "m1" "sub-alice" inception);
      [reflexivity | reflexivity |]. left. unfold InGroup. simpl.
    apply list_elem_of_In. simpl. auto.
Defined.

(** C8: [getMovie] on an id that names no record fails with kind "NotFound"
    for every identity, whatever its groups: the existence test comes before
    the permission test. *)
Theorem getMovie_missing gsis (t : Table) (i : Identity) (k : string) :
  t !! k = None →
  getMovie gsis i k t = (t, Error "Movie not found" "NotFound").
Proof.
  intros Hk.
  unfold getMovie, resolve, GetMovieResolver_request, GetMovieResolver_response.
  cbn [exec]. by rewrite Hk.
Qed.

Lemma getMovie_missing_witness :
  getMovie [] root "m9" one_movie = (one_movie, Error "Movie not found" "NotFound").
Proof. apply getMovie_missing. reflexivity. Defined.

(** ** createMovie *)

(** C4: for every identity and every argument triple, [createMovie] succeeds:
    no check stands between the call and the write.  The record it returns and
    stores has [createdBy] and [createdByEmail] taken from the identity; the
    arguments supply the other three attributes only. *)
Theorem createMovie_stamps_identity gsis (t : Table) (i : Identity) (autoId : string)
    (args : CreateArgs) :
  ∃ M : Item,
    createMovie gsis i autoId args t = (<[autoId := M]> t, Ok (JItem M))
    ∧ M !! "createdBy" = Some (AttrS (sub i))
    ∧ M !! "createdByEmail" = Some (AttrS (email i))
    ∧ M !! "id" = Some (AttrS autoId)
    ∧ M !! "title" = Some (AttrS (c_title args))
    ∧ M !! "publishingYear" = Some (AttrN (c_publishingYear args))
    ∧ M !! "poster" = Some (toDynamoDBJson (c_poster args))
    ∧ dom M = list_to_set ["id"; "createdBy"; "createdByEmail";
                           "title"; "publishingYear"; "poster"].
Proof.
  eexists. split; [reflexivity|].
  repeat split; by simplify_map_eq.
Qed.

(** ** updateMovie *)

Lemma update_expression_values (args : UpdateArgs) (R : Item) :
  apply_set
    {| expression :=
         [("title", ":title"); ("publishingYear", ":year"); ("poster", ":poster")];
       expressionValues :=
         [(":title", toDynamoDBJson (u_title args));
          (":year", toDynamoDBJsonInt (u_publishingYear args));
          (":poster", toDynamoDBJson (u_poster args))] |} R
  = <["poster" := toDynamoDBJson (u_poster args)]>
      (<["publishingYear" := toDynamoDBJsonInt (u_publishingYear args)]>
         (<["title" := toDynamoDBJson (u_title args)]> R)).
Proof.
  unfold apply_set, placeholder. cbn [expression expressionValues foldl].
  by simplify_map_eq.
Qed.

(** What the data source does with the update request on a stored record. *)
Lemma update_exec gsis (t : Table) (args : UpdateArgs) (R : Item) :
  t !! u_id args = Some R →
  is_Some (R !! "id") →
  exec gsis t (UpdateMovieResolver_request args)
  = let R' := <["poster" := toDynamoDBJson (u_poster args)]>
                (<["publishingYear" := toDynamoDBJsonInt (u_publishingYear args)]>
                   (<["title" := toDynamoDBJson (u_title args)]> R)) in
    (<[u_id args := R']> t, None, RItem R').
Proof.
  intros Hk Hid. unfold UpdateMovieResolver_request. cbn [exec from_option holds].
  rewrite Hk. rewrite bool_decide_eq_true_2 by done.
  cbn [default]. by rewrite update_expression_values.
Qed.

Lemma update_exec_missing gsis (t : Table) (args : UpdateArgs) :
  t !! u_id args = None →
  exec gsis t (UpdateMovieResolver_request args) = (t, Some ConditionalCheckFailed, RNull).
Proof.
  intros Hk. unfold UpdateMovieResolver_request. cbn [exec from_option holds].
  by rewrite Hk.
Qed.

(** C5: [updateMovie] on an id that names no record fails with kind
    "NotFound" for every identity (the failed [attribute_exists(id)] condition
    is reported under that kind, not under the data source's own), and the
    table is left as it was: nothing is created. *)
Theorem updateMovie_missing gsis (t : Table) (i : Identity) (args : UpdateArgs) :
  t !! u_id args = None →
  updateMovie gsis i args t = (t, Error "Movie not found" "NotFound").
Proof.
  intros Hk. unfold updateMovie, resolve. by rewrite update_exec_missing.
Qed.

Lemma updateMovie_missing_witness :
  updateMovie [] root
    {| u_id := "m9"; u_title := Some "Ghost"; u_publishingYear := None;
       u_poster := None |} one_movie
  = (one_movie, Error "Movie not found" "NotFound").
Proof. apply updateMovie_missing. reflexivity. Defined.

(** C6: [updateMovie] on a stored record [R] rewrites [title],
    [publishingYear] and [poster] with the arguments and leaves every other
    attribute of [R] as it was, [id], [createdBy] and [createdByEmail] among
    them; no other record is touched.  This holds whoever calls. *)
Theorem updateMovie_frame gsis (t : Table) (i : Identity) (args : UpdateArgs)
    (R : Item) :
  t !! u_id args = Some R →
  R !! "id" = Some (AttrS (u_id args)) →
  ∃ R' : Item,
    (updateMovie gsis i args t).1 = <[u_id args := R']> t
    ∧ R' !! "title" = Some (toDynamoDBJson (u_title args))
    ∧ R' !! "publishingYear" = Some (toDynamoDBJsonInt (u_publishingYear args))
    ∧ R' !! "poster" = Some (toDynamoDBJson (u_poster args))
    ∧ R' !! "createdBy" = R !! "createdBy"
    ∧ R' !! "id" = R !! "id"
    ∧ R' !! "createdByEmail" = R !! "createdByEmail"
    ∧ (∀ a : string, a ∉ mutable_attrs → R' !! a = R !! a).
Proof.
  intros Hk Hid. unfold updateMovie, resolve.
  rewrite (update_exec gsis t args R Hk) by (by rewrite Hid).
  eexists. split; [reflexivity|].
  repeat split; try (by simplify_map_eq).
  intros a Ha. unfold mutable_attrs in Ha.
  rewrite !lookup_insert_ne; [done | set_solver..].
Qed.

Lemma updateMovie_frame_witness :
  ∃ R' : Item,
    (updateMovie [] bob
       {| u_id := "m1"; u_title := Some "Tenet"; u_publishingYear := Some 2020;
          u_poster := None |} one_movie).1 = <["m1" := R']> one_movie
    ∧ R' !! "title" = Some (AttrS "Tenet")
    ∧ R' !! "publishingYear" = Some (AttrN 2020)
    ∧ R' !! "poster" = Some AttrNULL
    ∧ R' !! "createdBy" = inception !! "createdBy"
    ∧ R' !! "id" = inception !! "id"
    ∧ R' !! "createdByEmail" = inception !! "createdByEmail"
    ∧ (∀ a : string, a ∉ mutable_attrs → R' !! a = inception !! a).
Proof.
  apply (updateMovie_frame [] one_movie bob
           {| u_id := "m1"; u_title := Some "Tenet"; u_publishingYear := Some 2020;
              u_poster := None |} inception); reflexivity.
Defined.

(** C7: issuing the same [updateMovie] call a second time changes nothing: the
    table after two calls is the table after one, and the second call answers
    as the first did.  The store part holds even when the two calls come from
    different identities. *)
Theorem updateMovie_idempotent gsis (t : Table) (i j : Identity) (args : UpdateArgs) :
  (updateMovie gsis j args (updateMovie gsis i args t).1).1
  = (updateMovie gsis i args t).1
  ∧ updateMovie gsis i args (updateMovie gsis i args t).1 = updateMovie gsis i args t.
Proof.
  unfold updateMovie, resolve.
  destruct (t !! u_id args) as [R|] eqn:Hk.
  - destruct (decide (is_Some (R !! "id"))) as [Hid|Hid].
    + rewrite (update_exec gsis t args R Hk Hid). cbn zeta.
      set (R' := <["poster" := _]> _).
      assert (t' : <[u_id args := R']> t !! u_id args = Some R') by apply lookup_insert_eq.
      assert (Hid' : is_Some (R' !! "id")) by (subst R'; by simplify_map_eq).
      cbn [fst]. rewrite (update_exec gsis _ args R' t' Hid'). cbn zeta.
      assert (HR : <["poster" := toDynamoDBJson (u_poster args)]>
                (<["publishingYear" := toDynamoDBJsonInt (u_publishingYear args)]>
                   (<["title" := toDynamoDBJson (u_title args)]> R')) = R').
      { subst R'. apply map_eq. intros a.
        destruct (decide (a = "poster")) as [->|]; [by simplify_map_eq|].
        destruct (decide (a = "publishingYear")) as [->|]; [by simplify_map_eq|].
        destruct (decide (a = "title")) as [->|]; by simplify_map_eq. }
      rewrite HR, insert_insert_eq. done.
    + assert (He : exec gsis t (UpdateMovieResolver_request args)
                   = (t, Some ConditionalCheckFailed, RNull)).
      { unfold UpdateMovieResolver_request. cbn [exec from_option holds].
        rewrite Hk. by rewrite bool_decide_eq_false_2. }
      rewrite He. cbn [fst]. by rewrite He.
  - rewrite (update_exec_missing gsis t args Hk). cbn [fst].
    by rewrite (update_exec_missing gsis t args Hk).
Qed.

(** ** deleteMovie *)

(** The delete request removes the record, whoever asks: the permission test
    of the response template runs on what the data source already deleted. *)
Lemma deleteMovie_removes gsis (t : Table) (i : Identity) (k : string) :
  (deleteMovie gsis i k t).1 = delete k t.
Proof. reflexivity. Qed.

Lemma deleteMovie_denied gsis (t : Table) (i : Identity) (k owner : string) (R : Item) :
  t !! k = Some R →
  R !! "createdBy" = Some (AttrS owner) →
  ¬ canAccess i owner →
  deleteMovie gsis i k t
  = (delete k t, Error "Unauthorized to delete this movie" "Unauthorized").
Proof.
  intros Hk Hown Hno.
  unfold deleteMovie, resolve, DeleteMovieResolver_request, DeleteMovieResolver_response.
  cbn [exec error result identity]. rewrite Hk. cbn [from_option truthy negb].
  by rewrite (owner_check_false R owner i Hown Hno).
Qed.

(** C2 (the code departs from the claim): alice creates Inception; bob, who
    is no admin, calls [deleteMovie] on it.  The call fails with kind
    "Unauthorized", yet the table it leaves is empty, and alice's next
    [getMovie] fails with kind "NotFound". *)
Theorem deleteMovie_denied_yet_deleted :
  createMovie [] alice "m1" inception_args ∅ = (one_movie, Ok (JItem inception))
  ∧ deleteMovie [] bob "m1" one_movie
    = (∅, Error "Unauthorized to delete this movie" "Unauthorized")
  ∧ getMovie [] alice "m1" (deleteMovie [] bob "m1" one_movie).1
    = (∅, Error "Movie not found" "NotFound").
Proof. repeat split; vm_compute; reflexivity. Qed.

(** ** listMovies *)

Lemma filter_all {A} (l : list A) : List.filter (λ _, true) l = l.
Proof. induction l as [|x l IH]; [done|]. simpl. by rewrite IH. Qed.

Lemma filter_nil_all {A} (l : list A) : List.filter (λ _, true) l = [] → l = [].
Proof. by rewrite filter_all. Qed.

Lemma matches_owner (user : string) (R : Item) :
  matches (owner_expression user) R = true ↔ R !! "createdBy" = Some (AttrS user).
Proof.
  unfold matches, owner_expression, placeholder.
  cbn [expression expressionValues forallb]. simplify_map_eq.
  rewrite andb_true_r. apply bool_decide_eq_true.
Qed.

Lemma after_key_sublist (k : string) (rows : list (string * Item)) :
  after_key k rows `sublist_of` rows.
Proof.
  induction rows as [|r rows IH]; [done|]. simpl.
  destruct (String.eqb r.1 k); by constructor.
Qed.

Lemma after_token_sublist (tok : option string) (rows : list (string * Item)) :
  after_token tok rows `sublist_of` rows.
Proof. destruct tok; [apply after_key_sublist | done]. Qed.

(** The items of a page come from the rows, and pass the filter. *)
Lemma page_items (n : nat) (keep : Item → bool) (tok : option string)
    (rows : list (string * Item)) (R : Item) :
  R ∈ (page n keep tok rows).1 → keep R = true ∧ R ∈ rows.*2.
Proof.
  unfold page. cbn [fst]. rewrite list_elem_of_In, filter_In, <- list_elem_of_In.
  intros [Hin Hkeep]. split; [done|].
  eapply elem_of_sublist; [exact Hin|].
  apply fmap_sublist. etrans; [apply sublist_take | apply after_token_sublist].
Qed.

(** A page with no evaluated row has no token either. *)
Lemma page_unfiltered_empty (n : nat) (tok : option string)
    (rows : list (string * Item)) :
  (0 < n)%nat →
  (page n (λ _, true) tok rows).1 = [] →
  (page n (λ _, true) tok rows).2 = None.
Proof.
  unfold page. cbn [fst snd]. intros Hn Hitems.
  apply filter_nil_all, fmap_nil_inv in Hitems.
  destruct (after_token tok rows) as [|r rest]; [|by destruct n; [lia|]].
  simpl. by destruct n.
Qed.

(** The data source on the two owner-scoped requests. *)
Lemma scan_owned_exec gsis (t : Table) (user : string) (lim : Z) (tok : option string) :
  exec gsis t (FilteredScan.owned_request user lim tok)
  = if lim <=? 0 then (t, Some ValidationFailed, RNull)
    else (t, None,
          RPage (page (Z.to_nat lim) (matches (owner_expression user)) tok
                      (map_to_list t)).1
                (page (Z.to_nat lim) (matches (owner_expression user)) tok
                      (map_to_list t)).2).
Proof.
  unfold FilteredScan.owned_request. cbn [exec filter_of].
  destruct (lim <=? 0); [done|]. by destruct (page _ _ _ _).
Qed.

Lemma query_owned_exec (t : Table) (user : string) (lim : Z) (tok : option string) :
  exec IndexQuery.globalSecondaryIndexes t (IndexQuery.owned_request user lim tok)
  = if lim <=? 0 then (t, Some ValidationFailed, RNull)
    else (t, None,
          RPage (page (Z.to_nat lim) (λ _, true) tok (owned_rows user t)).1
                (page (Z.to_nat lim) (λ _, true) tok (owned_rows user t)).2).
Proof.
  unfold IndexQuery.owned_request. cbn [exec].
  change (index_key IndexQuery.globalSecondaryIndexes "CreatedByIndex")
    with (Some "createdBy").
  change ((expression (owner_expression user)).*1) with ["createdBy"].
  cbv beta iota. rewrite bool_decide_eq_true_2 by done. cbn [negb]. rewrite orb_false_r.
  destruct (lim <=? 0); [done|]. fold (owned_rows user t).
  by destruct (page _ _ _ _).
Qed.

(** What the data source answers to the list request of either revision. *)
Lemma list_exec (rev : Revision) (t : Table) (i : Identity) (args : ListArgs) :
  let limit := default (default_limit rev) (l_limit args) in
  let pg := page (Z.to_nat limit) (list_plan rev i t).1 (l_nextToken args)
                 (list_plan rev i t).2 in
  exec (indexes_of rev) t (list_request rev i args)
  = if limit <=? 0 then (t, Some ValidationFailed, RNull)
    else (t, None, RPage pg.1 pg.2).
Proof.
  cbv zeta. unfold list_plan.
  destruct rev; unfold list_request, FilteredScan.ListMoviesResolver_request,
    IndexQuery.ListMoviesResolver_request; cbn [default_limit indexes_of];
    destruct (inAdmins i); cbn [fst snd];
    rewrite ?scan_owned_exec, ?query_owned_exec; try done;
    cbn [exec filter_of]; destruct (_ <=? 0); try done; by destruct (page _ _ _ _).
Qed.

Lemma list_plan_unfiltered (i : Identity) (t : Table) :
  (list_plan Rev_IndexQuery i t).1 = λ _, true.
Proof. unfold list_plan. by destruct (inAdmins i). Qed.

(** The response of either revision, read backwards. *)
Lemma list_response_ok (rev : Revision) (i : Identity) (args : ListArgs) (t : Table)
    (items : list Item) (next : option string) :
  (listMovies rev i args t).2 = Ok (JConnection (Some items) next) →
  ∃ (t' : Table) (r : DsResult),
    exec (indexes_of rev) t (list_request rev i args) = (t', None, r)
    ∧ (result_items r = Some items ∨ result_items r = None ∧ items = []).
Proof.
  destruct rev; unfold listMovies, FilteredScan.listMovies, IndexQuery.listMovies,
    resolve; cbn [indexes_of list_request];
    destruct (exec _ _ _) as [[t' [e|]] r]; cbn [snd];
    unfold FilteredScan.ListMoviesResolver_response,
      IndexQuery.ListMoviesResolver_response; cbn [error result]; try done.
  - intros Hok. exists t', r. split; [done|].
    destruct (result_items r) as [items'|]; [|right; split; congruence].
    left. destruct items' as [|R items']; cbn in Hok; congruence.
  - intros [= Hi _]. exists t', r. by split; [|left].
Qed.



(** C9: a [listMovies] call whose data source result holds no items is not an
    error, for any identity and in either revision: it answers with an empty
    item list and a null [nextToken]. *)
Theorem listMovies_empty (rev : Revision) (t t' : Table) (i : Identity)
    (args : ListArgs) (next : option string) :
  exec (indexes_of rev) t (list_request rev i args) = (t', None, RPage [] next) →
  listMovies rev i args t = (t, Ok (JConnection (Some []) None)).
Proof.
  intros Hex. pose proof (list_exec rev t i args) as Hle.
  cbv zeta in Hle. rewrite Hex in Hle.
  destruct (_ <=? 0) eqn:Hlim; [done|]. apply Z.leb_gt in Hlim.
  assert (t' = t) as -> by congruence.
  destruct rev; unfold listMovies, FilteredScan.listMovies, IndexQuery.listMovies,
    resolve; cbn [indexes_of list_request] in Hex |- *; rewrite Hex; [done|].
  unfold IndexQuery.ListMoviesResolver_response.
  cbn [error result result_items result_nextToken].
  rewrite list_plan_unfiltered in Hle. injection Hle as Hnil ->.
  do 3 f_equal.
  apply (page_unfiltered_empty (Z.to_nat (default (default_limit Rev_IndexQuery)
           (l_limit args))) (l_nextToken args) (list_plan Rev_IndexQuery i t).2);
    [lia | by symmetry].
Qed.

Lemma listMovies_empty_witness :
  listMovies Rev_FilteredScan bob {| l_limit := Some 1; l_nextToken := None |} two_movies
  = (two_movies, Ok (JConnection (Some []) None))
  ∧ listMovies Rev_IndexQuery bob {| l_limit := None; l_nextToken := None |} one_movie
    = (one_movie, Ok (JConnection (Some []) None)).
Proof.
  split.
  - apply (listMovies_empty Rev_FilteredScan two_movies two_movies bob
             {| l_limit := Some 1; l_nextToken := None |} (Some "m1")).
    vm_compute. reflexivity.
  - apply (listMovies_empty Rev_IndexQuery one_movie one_movie bob
             {| l_limit := None; l_nextToken := None |} None).
    vm_compute. reflexivity.
Defined.

(** ** Exhaustive listings *)

Lemma after_key_app (pre post : list (string * Item)) (r : string * Item) :
  NoDup (pre ++ r :: post).*1 →
  after_key r.1 (pre ++ r :: post) = post.
Proof.
  induction pre as [|x pre IH]; intros Hnd; simpl.
  - by rewrite String.eqb_refl.
  - rewrite <- app_comm_cons, fmap_cons in Hnd. apply NoDup_cons in Hnd as [Hx Hnd].
    destruct (String.eqb_spec x.1 r.1) as [Heq|_]; [|by apply IH].
    exfalso. apply Hx. rewrite Heq, fmap_app, fmap_cons. set_solver.
Qed.

(** Paging through [rows] from any point reached so far yields the filtered
    remainder, once the fuel covers the rows that are left. *)
Lemma collect_rest (n : nat) (keep : Item → bool) (rows : list (string * Item)) :
  NoDup rows.*1 → (0 < n)%nat →
  ∀ (fuel : nat) (pre rest : list (string * Item)) (tok : option string),
    rows = pre ++ rest →
    after_token tok rows = rest →
    (length rest < fuel)%nat →
    collect fuel n keep rows tok = Some (List.filter keep rest.*2).
Proof.
  intros Hnd Hn. induction fuel as [|fuel IH]; intros pre rest tok Hrows Htok Hlen;
    [lia|].
  cbn [collect]. unfold page. rewrite Htok.
  destruct (Nat.leb_spec n (length rest)) as [Hle|Hgt].
  - destruct (take n rest) as [|r w _] eqn:Hw using rev_ind.
    { apply (f_equal length) in Hw. rewrite length_take in Hw. simpl in Hw. lia. }
    rewrite last_snoc. cbn [fmap option_fmap option_map].
    assert (Hsplit : rows = (pre ++ w) ++ r :: drop n rest).
    { rewrite Hrows, <- (take_drop n rest) at 1. rewrite Hw.
      by rewrite <- !app_assoc. }
    rewrite (IH (pre ++ w ++ [r]) (drop n rest) (Some r.1)).
    + cbn [fmap option_fmap option_map]. f_equal.
      rewrite <- List.filter_app, <- fmap_app, <- Hw. by rewrite take_drop.
    + rewrite Hsplit. by rewrite <- !app_assoc.
    + cbn [after_token]. rewrite Hsplit. apply after_key_app. by rewrite <- Hsplit.
    + rewrite length_drop. lia.
  - by rewrite take_ge by lia.
Qed.

Lemma collect_all (n fuel : nat) (keep : Item → bool) (rows : list (string * Item)) :
  NoDup rows.*1 → (0 < n)%nat → (length rows < fuel)%nat →
  collect fuel n keep rows None = Some (List.filter keep rows.*2).
Proof. intros Hnd Hn Hlen. by apply (collect_rest n keep rows Hnd Hn fuel [] rows). Qed.

(** The loop on the data source is the loop on the rows it pages over. *)
Lemma exhaust_collect gsis (t : Table) (rq : option string → Request) (n : nat)
    (keep : Item → bool) (rows : list (string * Item)) :
  (∀ tok, exec gsis t (rq tok)
          = (t, None, RPage (page n keep tok rows).1 (page n keep tok rows).2)) →
  ∀ (fuel : nat) (tok : option string),
    exhaust fuel gsis t rq tok = collect fuel n keep rows tok.
Proof.
  intros Hex. induction fuel as [|fuel IH]; intros tok; [done|].
  cbn [exhaust collect]. unfold fetch. rewrite Hex.
  destruct (page n keep tok rows) as [items [k|]]; cbn [fst snd]; [|done].
  by rewrite IH.
Qed.

Lemma owned_rows_items (user : string) (t : Table) :
  List.filter (λ _, true) (owned_rows user t).*2
  = List.filter (matches (owner_expression user)) (map_to_list t).*2.
Proof.
  rewrite filter_all. unfold owned_rows.
  induction (map_to_list t) as [|[k R] rows IH]; [done|]. cbn [List.filter snd fmap list_fmap].
  destruct (matches (owner_expression user) R) eqn:Hm.
  - apply matches_owner in Hm as Hown. unfold indexed. rewrite Hown. cbn [andb].
    simpl. by rewrite <- IH.
  - by rewrite andb_false_r.
Qed.

Lemma owned_rows_NoDup (user : string) (t : Table) : NoDup (owned_rows user t).*1.
Proof.
  eapply sublist_NoDup; [apply (NoDup_fst_map_to_list t)|].
  apply fmap_sublist. unfold owned_rows.
  induction (map_to_list t) as [|r rows IH]; [done|]. simpl.
  destruct (_ && _); by constructor.
Qed.

Lemma owned_rows_length (user : string) (t : Table) :
  (length (owned_rows user t) ≤ size t)%nat.
Proof.
  rewrite <- (length_map_to_list t). unfold owned_rows.
  induction (map_to_list t) as [|r rows IH]; [done|]. simpl.
  destruct (_ && _); simpl; lia.
Qed.

(** On the data source alone, below the response templates: for a positive
    limit, following the continuation token of the filtered Scan to its end
    and following that of the Query on [CreatedByIndex] to its end both
    terminate, and they return the same records: those of the table whose
    [createdBy] is the caller. *)
Theorem owner_listings_agree (t : Table) (user : string) (limit : Z) (fuel : nat) :
  0 < limit →
  (size t < fuel)%nat →
  ∃ scanned queried : list Item,
    exhaust fuel FilteredScan.globalSecondaryIndexes t
            (FilteredScan.owned_request user limit) None = Some scanned
    ∧ exhaust fuel IndexQuery.globalSecondaryIndexes t
              (IndexQuery.owned_request user limit) None = Some queried
    ∧ (∀ R : Item, R ∈ scanned ↔ R ∈ queried)
    ∧ (∀ R : Item,
         R ∈ scanned
         ↔ ∃ k : string, t !! k = Some R ∧ R !! "createdBy" = Some (AttrS user)).
Proof.
  intros Hlim Hfuel.
  assert (Hpos : (limit <=? 0) = false) by (apply Z.leb_gt; lia).
  exists (List.filter (matches (owner_expression user)) (map_to_list t).*2),
         (List.filter (matches (owner_expression user)) (map_to_list t).*2).
  split; [|split; [|split; [done|]]].
  - rewrite (exhaust_collect _ t _ (Z.to_nat limit) (matches (owner_expression user))
               (map_to_list t)).
    + apply collect_all; [apply NoDup_fst_map_to_list | lia |].
      by rewrite length_map_to_list.
    + intros tok. by rewrite scan_owned_exec, Hpos.
  - rewrite (exhaust_collect _ t _ (Z.to_nat limit) (λ _, true) (owned_rows user t)).
    + rewrite collect_all; [by rewrite owned_rows_items | apply owned_rows_NoDup | lia |].
      pose proof (owned_rows_length user t). lia.
    + intros tok. by rewrite query_owned_exec, Hpos.
  - intros R. rewrite list_elem_of_In, filter_In, <- list_elem_of_In, matches_owner.
    rewrite list_elem_of_fmap. split.
    + intros [([k R'] & -> & Hin) Hown]. exists k. split; [|done].
      by apply elem_of_map_to_list.
    + intros (k & Hk & Hown). split; [|done]. exists (k, R). split; [done|].
      by apply elem_of_map_to_list.
Qed.

Lemma owner_listings_agree_witness :
  ∃ scanned queried : list Item,
    exhaust 3 FilteredScan.globalSecondaryIndexes two_movies
            (FilteredScan.owned_request "sub-bob" 1) None = Some scanned
    ∧ exhaust 3 IndexQuery.globalSecondaryIndexes two_movies
              (IndexQuery.owned_request "sub-bob" 1) None = Some queried
    ∧ (∀ R : Item, R ∈ scanned ↔ R ∈ queried)
    ∧ (∀ R : Item,
         R ∈ scanned
         ↔ ∃ k : string, two_movies !! k = Some R
                         ∧ R !! "createdBy" = Some (AttrS "sub-bob")).
Proof.
  apply (owner_listings_agree two_movies "sub-bob" 1 3); [lia | vm_compute; lia].
Defined.

(** The pages themselves differ: with limit 1 the first Scan page evaluates
    alice's record, returns no item and a token, while the first Query page
    returns bob's record. *)
Example scan_page_falls_short :
  exec FilteredScan.globalSecondaryIndexes two_movies
       (FilteredScan.owned_request "sub-bob" 1 None)
  = (two_movies, None, RPage [] (Some "m1"))
  ∧ exec IndexQuery.globalSecondaryIndexes two_movies
         (IndexQuery.owned_request "sub-bob" 1 None)
    = (two_movies, None, RPage [heat] (Some "m2")).
Proof. split; vm_compute; reflexivity. Qed.

(** The response template of the Scan revision answers an empty page with a
    null token, so a client that follows the resolver's tokens stops there;
    the response template of the Query revision hands the token on. *)
Example browse_filtered_scan_stops :
  browse 3 (λ a, (FilteredScan.listMovies bob a two_movies).2) (Some 1) None = Some []
  ∧ browse 3 (λ a, (IndexQuery.listMovies bob a two_movies).2) (Some 1) None
    = Some [heat].
Proof. split; vm_compute; reflexivity. Qed.

(** * Further properties of the resolvers *)

(** ** Single calls *)

Lemma getMovie_stored gsis (t : Table) (i : Identity) (k : string) (R : Item) :
  t !! k = Some R →
  getMovie gsis i k t
  = (t, if vtl_eq (R !! "createdBy") (sub i) || isAdmin i
        then Ok (JItem R)
        else Error "Unauthorized to view this movie" "Unauthorized").
Proof.
  intros Hk.
  unfold getMovie, resolve, GetMovieResolver_request, GetMovieResolver_response.
  cbn [exec error result identity]. rewrite Hk. cbn [from_option truthy negb result_attr].
  by destruct (_ || _).
Qed.

Lemma createMovie_table gsis (t : Table) (i : Identity) (autoId : string)
    (args : CreateArgs) :
  createMovie gsis i autoId args t
  = (<[autoId := new_record i autoId args]> t, Ok (JItem (new_record i autoId args))).
Proof. reflexivity. Qed.

Lemma new_record_wf (i : Identity) (autoId : string) (args : CreateArgs) :
  record_wf autoId (new_record i autoId args).
Proof.
  unfold record_wf, new_record. split; [by simplify_map_eq|].
  split; eexists; by simplify_map_eq.
Qed.

Lemma rewritten_frame (args : UpdateArgs) (R : Item) (a : string) :
  a ∉ mutable_attrs → rewritten args R !! a = R !! a.
Proof.
  unfold mutable_attrs, rewritten. intros Ha.
  rewrite !lookup_insert_ne; [done | set_solver..].
Qed.

Lemma rewritten_wf (args : UpdateArgs) (k : string) (R : Item) :
  record_wf k R → record_wf k (rewritten args R).
Proof.
  unfold record_wf. rewrite !rewritten_frame; [done | unfold mutable_attrs; set_solver..].
Qed.

(** The table an update call leaves, for any caller. *)
Lemma updateMovie_table gsis (t : Table) (i : Identity) (args : UpdateArgs) :
  (updateMovie gsis i args t).1
  = match t !! u_id args with
    | Some R => if bool_decide (is_Some (R !! "id"))
                then <[u_id args := rewritten args R]> t
                else t
    | None => t
    end.
Proof.
  unfold updateMovie, resolve. destruct (t !! u_id args) as [R|] eqn:Hk.
  - case_bool_decide as Hid.
    + by rewrite (update_exec gsis t args R Hk Hid).
    + unfold UpdateMovieResolver_request. cbn [exec from_option holds].
      rewrite Hk. by rewrite bool_decide_eq_false_2.
  - by rewrite (update_exec_missing gsis t args Hk).
Qed.

(** X1: an update of a stored record is written whoever calls; only the
    answer depends on the caller: the rewritten record for the owner or an
    admin, kind "Unauthorized" for anyone else. *)
Theorem updateMovie_outcome gsis (t : Table) (i : Identity) (args : UpdateArgs)
    (R : Item) (owner : string) :
  t !! u_id args = Some R →
  R !! "id" = Some (AttrS (u_id args)) →
  R !! "createdBy" = Some (AttrS owner) →
  (canAccess i owner →
   updateMovie gsis i args t
   = (<[u_id args := rewritten args R]> t, Ok (JItem (rewritten args R))))
  ∧ (¬ canAccess i owner →
     updateMovie gsis i args t
     = (<[u_id args := rewritten args R]> t,
        Error "Unauthorized to update this movie" "Unauthorized")).
Proof.
  intros Hk Hid Hown.
  assert (Hown' : rewritten args R !! "createdBy" = Some (AttrS owner)).
  { rewrite rewritten_frame; [done | unfold mutable_attrs; set_solver]. }
  unfold updateMovie, resolve.
  rewrite (update_exec gsis t args R Hk) by (by rewrite Hid).
  cbv zeta. fold (rewritten args R).
  unfold UpdateMovieResolver_response. cbn [error result identity].
  split; intros Hacc.
  - apply (owner_check _ owner i Hown') in Hacc. by rewrite Hacc.
  - by rewrite (owner_check_false _ owner i Hown' Hacc).
Qed.

Lemma updateMovie_outcome_witness :
  (canAccess root "sub-alice" →
   updateMovie [] root tenet_args one_movie
   = (<["m1" := rewritten tenet_args inception]> one_movie,
      Ok (JItem (rewritten tenet_args inception))))
  ∧ (¬ canAccess root "sub-alice" →
     updateMovie [] root tenet_args one_movie
     = (<["m1" := rewritten tenet_args inception]> one_movie,
        Error "Unauthorized to update this movie" "Unauthorized")).
Proof.
  apply (updateMovie_outcome [] one_movie root tenet_args inception "sub-alice");
    reflexivity.
Defined.

(** X2: a delete of a stored record removes it whoever calls; the answer is
    the removed record for the owner or an admin, kind "Unauthorized" for
    anyone else. *)
Theorem deleteMovie_outcome gsis (t : Table) (i : Identity) (k owner : string)
    (R : Item) :
  t !! k = Some R →
  R !! "createdBy" = Some (AttrS owner) →
  (canAccess i owner → deleteMovie gsis i k t = (delete k t, Ok (JItem R)))
  ∧ (¬ canAccess i owner →
     deleteMovie gsis i k t
     = (delete k t, Error "Unauthorized to delete this movie" "Unauthorized")).
Proof.
  intros Hk Hown.
  unfold deleteMovie, resolve, DeleteMovieResolver_request, DeleteMovieResolver_response.
  cbn [exec error result identity]. rewrite Hk. cbn [from_option truthy negb].
  split; intros Hacc.
  - apply (owner_check R owner i Hown) in Hacc. by rewrite Hacc.
  - by rewrite (owner_check_false R owner i Hown Hacc).
Qed.

Lemma deleteMovie_outcome_witness :
  (canAccess alice "sub-alice" →
   deleteMovie [] alice "m1" two_movies = (delete "m1" two_movies, Ok (JItem inception)))
  ∧ (¬ canAccess alice "sub-alice" →
     deleteMovie [] alice "m1" two_movies
     = (delete "m1" two_movies,
        Error "Unauthorized to delete this movie" "Unauthorized")).
Proof.
  apply (deleteMovie_outcome [] two_movies alice "m1" "sub-alice" inception);
    reflexivity.
Defined.

(** X3: a delete of an id that names no record fails with kind "NotFound"
    for every identity and leaves the table as it was. *)
Theorem deleteMovie_missing gsis (t : Table) (i : Identity) (k : string) :
  t !! k = None →
  deleteMovie gsis i k t = (t, Error "Movie not found" "NotFound").
Proof.
  intros Hk.
  unfold deleteMovie, resolve, DeleteMovieResolver_request, DeleteMovieResolver_response.
  cbn [exec error result identity]. rewrite Hk. cbn [from_option truthy negb].
  by rewrite delete_id.
Qed.

Lemma deleteMovie_missing_witness :
  deleteMovie [] root "m9" one_movie = (one_movie, Error "Movie not found" "NotFound").
Proof. apply deleteMovie_missing. reflexivity. Defined.

(** ** Calls in sequence *)

(** X4: once [deleteMovie] was called on an id, by anyone and whatever it
    answered, [getMovie] on that id fails with kind "NotFound" for every
    identity. *)
Theorem delete_then_get gsis (t : Table) (i j : Identity) (k : string) :
  getMovie gsis j k (deleteMovie gsis i k t).1
  = (delete k t, Error "Movie not found" "NotFound").
Proof.
  rewrite deleteMovie_removes.
  unfold getMovie, resolve, GetMovieResolver_request, GetMovieResolver_response.
  cbn [exec]. by rewrite lookup_delete_eq.
Qed.

(** X5: the record [createMovie] answers with is the record a following
    [getMovie] on the new id returns to the creator and to any admin; any
    other caller is refused with kind "Unauthorized". *)
Theorem create_then_get gsis (t : Table) (i j : Identity) (autoId : string)
    (args : CreateArgs) :
  let created := createMovie gsis i autoId args t in
  (getMovie gsis i autoId created.1).2 = created.2
  ∧ (canAccess j (sub i) → (getMovie gsis j autoId created.1).2 = created.2)
  ∧ (¬ canAccess j (sub i) →
     (getMovie gsis j autoId created.1).2
     = Error "Unauthorized to view this movie" "Unauthorized").
Proof.
  cbv zeta. rewrite createMovie_table. cbn [fst snd].
  assert (Hown : new_record i autoId args !! "createdBy" = Some (AttrS (sub i))).
  { unfold new_record. by simplify_map_eq. }
  assert (Hget : ∀ c : Identity,
             getMovie gsis c autoId (<[autoId := new_record i autoId args]> t)
             = (<[autoId := new_record i autoId args]> t,
                if vtl_eq (new_record i autoId args !! "createdBy") (sub c) || isAdmin c
                then Ok (JItem (new_record i autoId args))
                else Error "Unauthorized to view this movie" "Unauthorized")).
  { intros c. apply getMovie_stored, lookup_insert_eq. }
  rewrite !Hget. cbn [snd]. split; [|split].
  - rewrite Hown. cbn [vtl_eq]. by rewrite String.eqb_refl.
  - intros Hacc. apply (owner_check _ _ j Hown) in Hacc.
    cbn [result_attr] in Hacc. by rewrite Hacc.
  - intros Hacc. pose proof (owner_check_false _ _ j Hown Hacc) as Hno.
    cbn [result_attr] in Hno. by rewrite Hno.
Qed.

Lemma create_then_get_witness :
  (getMovie [] alice "m1" (createMovie [] alice "m1" inception_args ∅).1).2
  = (createMovie [] alice "m1" inception_args ∅).2
  ∧ (canAccess root (sub alice) →
     (getMovie [] root "m1" (createMovie [] alice "m1" inception_args ∅).1).2
     = (createMovie [] alice "m1" inception_args ∅).2)
  ∧ (¬ canAccess root (sub alice) →
     (getMovie [] root "m1" (createMovie [] alice "m1" inception_args ∅).1).2
     = Error "Unauthorized to view this movie" "Unauthorized").
Proof. apply (create_then_get [] ∅ alice root "m1" inception_args). Defined.

(** X6: an update never changes who may read the record: after
    [updateMovie] on a stored record, by any caller, [getMovie] returns the
    rewritten record to the owner and to admins and refuses everyone else. *)
Theorem update_then_get gsis (t : Table) (i j : Identity) (args : UpdateArgs)
    (R : Item) (owner : string) :
  t !! u_id args = Some R →
  R !! "id" = Some (AttrS (u_id args)) →
  R !! "createdBy" = Some (AttrS owner) →
  let t' := (updateMovie gsis i args t).1 in
  (canAccess j owner →
   getMovie gsis j (u_id args) t' = (t', Ok (JItem (rewritten args R))))
  ∧ (¬ canAccess j owner →
     getMovie gsis j (u_id args) t'
     = (t', Error "Unauthorized to view this movie" "Unauthorized")).
Proof.
  intros Hk Hid Hown. cbv zeta.
  rewrite updateMovie_table, Hk, bool_decide_eq_true_2 by (by rewrite Hid).
  assert (Hown' : rewritten args R !! "createdBy" = Some (AttrS owner)).
  { rewrite rewritten_frame; [done | unfold mutable_attrs; set_solver]. }
  rewrite (getMovie_stored gsis _ j (u_id args) (rewritten args R))
    by apply lookup_insert_eq.
  split; intros Hacc.
  - apply (owner_check _ owner j Hown') in Hacc. cbn [result_attr] in Hacc.
    by rewrite Hacc.
  - pose proof (owner_check_false _ owner j Hown' Hacc) as Hno.
    cbn [result_attr] in Hno. by rewrite Hno.
Qed.

Lemma update_then_get_witness :
  (canAccess alice "sub-alice" →
   getMovie [] alice "m1" (updateMovie [] bob tenet_args one_movie).1
   = ((updateMovie [] bob tenet_args one_movie).1,
      Ok (JItem (rewritten tenet_args inception))))
  ∧ (¬ canAccess alice "sub-alice" →
     getMovie [] alice "m1" (updateMovie [] bob tenet_args one_movie).1
     = ((updateMovie [] bob tenet_args one_movie).1,
        Error "Unauthorized to view this movie" "Unauthorized")).
Proof.
  apply (update_then_get [] one_movie bob alice tenet_args inception "sub-alice");
    reflexivity.
Defined.

(** ** What calls leave alone *)

Lemma listMovies_pure (rev : Revision) (i : Identity) (args : ListArgs) (t : Table) :
  (listMovies rev i args t).1 = t.
Proof.
  pose proof (list_exec rev t i args) as Hex. cbv zeta in Hex.
  destruct rev; unfold listMovies, FilteredScan.listMovies, IndexQuery.listMovies,
    resolve; cbn [indexes_of list_request] in Hex |- *; rewrite Hex;
    by destruct (_ <=? 0).
Qed.

Lemma step_other_keys (rev : Revision) (c : Call) (t : Table) (k : string) :
  target c ≠ Some k →
  (step rev c t).1 !! k = t !! k.
Proof.
  intros Hk. destruct c as [i args|i id|i autoId args|i args|i id];
    cbn [step target] in *.
  - by rewrite listMovies_pure.
  - done.
  - rewrite createMovie_table. cbn [fst]. apply lookup_insert_ne. congruence.
  - rewrite updateMovie_table. destruct (t !! u_id args) as [R|]; [|done].
    case_bool_decide; [|done]. apply lookup_insert_ne. congruence.
  - rewrite deleteMovie_removes. apply lookup_delete_ne. congruence.
Qed.

(** X7: a call changes nothing outside the key it writes under: every other
    record is as before, and [listMovies] and [getMovie], which write under no
    key, leave the whole table as it was. *)
Theorem step_frame (rev : Revision) (c : Call) (t : Table) (k : string) :
  target c ≠ Some k →
  (step rev c t).1 !! k = t !! k.
Proof. apply step_other_keys. Qed.

Lemma step_frame_witness :
  (step Rev_IndexQuery (CallDelete bob "m1") two_movies).1 !! "m2" = two_movies !! "m2".
Proof. apply step_frame. discriminate. Defined.

(** X8: no call other than a [createMovie] that draws the same id changes
    the [id], [createdBy] or [createdByEmail] of a record that is still
    stored afterwards. *)
Theorem step_keeps_owner (rev : Revision) (c : Call) (t : Table) (k : string)
    (R R' : Item) :
  (∀ (i : Identity) (args : CreateArgs), c ≠ CallCreate i k args) →
  t !! k = Some R →
  (step rev c t).1 !! k = Some R' →
  R' !! "id" = R !! "id"
  ∧ R' !! "createdBy" = R !! "createdBy"
  ∧ R' !! "createdByEmail" = R !! "createdByEmail".
Proof.
  intros Hc Hk Hk'.
  destruct (decide (target c = Some k)) as [Ht|Ht].
  - destruct c as [i args|i id|i autoId args|i args|i id];
      cbn [step target] in *; try discriminate; injection Ht as Ht.
    + subst autoId. by destruct (Hc i args).
    + rewrite updateMovie_table, Ht, Hk in Hk'. case_bool_decide.
      * rewrite lookup_insert_eq in Hk'. injection Hk' as <-.
        rewrite !rewritten_frame; [done | unfold mutable_attrs; set_solver..].
      * by simplify_eq.
    + subst id. rewrite deleteMovie_removes, lookup_delete_eq in Hk'. discriminate.
  - rewrite (step_other_keys rev c t k Ht) in Hk'. by simplify_eq.
Qed.

Lemma step_keeps_owner_witness :
  rewritten tenet_args inception !! "id" = inception !! "id"
  ∧ rewritten tenet_args inception !! "createdBy" = inception !! "createdBy"
  ∧ rewritten tenet_args inception !! "createdByEmail" = inception !! "createdByEmail".
Proof.
  apply (step_keeps_owner Rev_FilteredScan (CallUpdate bob tenet_args) one_movie "m1");
    [discriminate | reflexivity | reflexivity].
Defined.

Lemma step_wf (rev : Revision) (c : Call) (t : Table) :
  table_wf t → table_wf (step rev c t).1.
Proof.
  intros Hwf k R' Hk'.
  destruct (decide (target c = Some k)) as [Ht|Ht].
  - destruct c as [i args|i id|i autoId args|i args|i id];
      cbn [step target] in *; try discriminate; injection Ht as Ht.
    + subst autoId. rewrite createMovie_table in Hk'. cbn [fst] in Hk'.
      rewrite lookup_insert_eq in Hk'. injection Hk' as <-. apply new_record_wf.
    + rewrite updateMovie_table, Ht in Hk'.
      destruct (t !! k) as [R|] eqn:Hk; [|by rewrite Hk in Hk'].
      case_bool_decide; [|by apply Hwf; rewrite <- Hk'].
      rewrite lookup_insert_eq in Hk'. injection Hk' as <-.
      by apply rewritten_wf, Hwf.
    + subst id. rewrite deleteMovie_removes, lookup_delete_eq in Hk'. discriminate.
  - rewrite (step_other_keys rev c t k Ht) in Hk'. by apply Hwf.
Qed.

(** X9: whatever calls were made since the table was empty, every stored
    record carries its own key as [id] and has a string [createdBy] and a
    string [createdByEmail]. *)
Theorem run_wf (rev : Revision) (cs : list Call) : table_wf (run rev cs ∅).
Proof.
  unfold run. assert (Hwf : table_wf (∅ : Table)) by (intros k R; by rewrite lookup_empty).
  revert Hwf. generalize (∅ : Table).
  induction cs as [|c cs IH]; intros t Hwf; [done|].
  cbn [foldl]. by apply IH, step_wf.
Qed.

(** ** Listings *)

(** X10: [listMovies] never returns more items than the limit in force: the
    [limit] argument, or 11 (Scan revision) or 10 (Query revision) when the
    argument is absent. *)
Theorem listMovies_bounded (rev : Revision) (t : Table) (i : Identity) (args : ListArgs)
    (items : list Item) (next : option string) :
  (listMovies rev i args t).2 = Ok (JConnection (Some items) next) →
  (length items ≤ Z.to_nat (default (default_limit rev) (l_limit args)))%nat.
Proof.
  intros (t' & r & Hex & Hitems)%list_response_ok.
  rewrite list_exec in Hex. destruct (_ <=? 0); [done|].
  assert (Hr : result_items r
               = Some (page (Z.to_nat (default (default_limit rev) (l_limit args)))
                            (list_plan rev i t).1 (l_nextToken args)
                            (list_plan rev i t).2).1) by (by simplify_eq).
  destruct Hitems as [Hitems|[_ ->]]; [|simpl; lia].
  rewrite Hr in Hitems. injection Hitems as <-. unfold page. cbn [fst].
  etrans; [apply List.filter_length_le|].
  rewrite length_fmap, length_take. lia.
Qed.

Lemma listMovies_bounded_witness :
  (length [inception; heat] ≤ Z.to_nat (default (default_limit Rev_FilteredScan) None))%nat.
Proof.
  apply (listMovies_bounded Rev_FilteredScan two_movies root
           {| l_limit := None; l_nextToken := None |} [inception; heat] None).
  vm_compute. reflexivity.
Defined.

Lemma list_plan_rows (rev : Revision) (i : Identity) (t : Table) (R : Item) :
  R ∈ (list_plan rev i t).2.*2 → ∃ k : string, t !! k = Some R.
Proof.
  intros ([k R'] & -> & Hin)%list_elem_of_fmap. exists k. cbn [snd].
  apply elem_of_map_to_list. revert Hin. unfold list_plan, owned_rows.
  destruct (inAdmins i); [done|]. destruct rev; cbn [snd]; [done|].
  rewrite list_elem_of_In, filter_In, <- list_elem_of_In. by intros [? _].
Qed.

(** X11: what [listMovies] shows a caller, that caller can fetch: every item
    of an answer is a record stored in the table, and [getMovie] on its key
    returns it to the same identity. *)
Theorem list_then_get (rev : Revision) (t : Table) (i : Identity) (args : ListArgs)
    (items : list Item) (next : option string) (R : Item) :
  (listMovies rev i args t).2 = Ok (JConnection (Some items) next) →
  R ∈ items →
  ∃ k : string,
    t !! k = Some R
    ∧ getMovie (indexes_of rev) i k t = (t, Ok (JItem R)).
Proof.
  intros (t' & r & Hex & Hitems)%list_response_ok HR.
  rewrite list_exec in Hex. destruct (_ <=? 0); [done|].
  assert (Hr : result_items r
               = Some (page (Z.to_nat (default (default_limit rev) (l_limit args)))
                            (list_plan rev i t).1 (l_nextToken args)
                            (list_plan rev i t).2).1) by (by simplify_eq).
  destruct Hitems as [Hitems|[_ ->]]; [|by apply not_elem_of_nil in HR].
  rewrite Hr in Hitems. injection Hitems as <-.
  apply page_items in HR as [Hkeep Hrows].
  destruct (list_plan_rows rev i t R Hrows) as [k Hk]. exists k. split; [done|].
  rewrite (getMovie_stored _ t i k R Hk).
  assert (Hok : vtl_eq (R !! "createdBy") (sub i) || isAdmin i = true);
    [|by rewrite Hok].
  rewrite <- inAdmins_isAdmin. unfold list_plan in Hkeep, Hrows.
  destruct (inAdmins i); [apply orb_true_r|]. rewrite orb_false_r.
  assert (Hown : R !! "createdBy" = Some (AttrS (sub i))).
  { destruct rev; cbn [fst snd] in *; [by apply matches_owner|].
    apply list_elem_of_fmap in Hrows as ([k' R'] & -> & Hin).
    apply list_elem_of_In, filter_In in Hin as [_ Hin].
    apply andb_true_iff in Hin as [_ Hin]. by apply matches_owner in Hin. }
  rewrite Hown. cbn [vtl_eq]. apply String.eqb_refl.
Qed.

Lemma list_then_get_witness :
  ∃ k : string,
    two_movies !! k = Some heat
    ∧ getMovie (indexes_of Rev_IndexQuery) bob k two_movies
      = (two_movies, Ok (JItem heat)).
Proof.
  apply (list_then_get Rev_IndexQuery two_movies bob
           {| l_limit := Some 5; l_nextToken := None |} [heat] None heat).
  - vm_compute. reflexivity.
  - apply list_elem_of_In. simpl. auto.
Defined.

(** Where no filter runs on the evaluated rows (an admin's Scan, and the
    Query), the response hands on the page and its token as they are. *)
Lemma list_response_unfiltered (rev : Revision) (i : Identity) (args : ListArgs)
    (t : Table) :
  (list_plan rev i t).1 = (λ _, true) →
  0 < default (default_limit rev) (l_limit args) →
  let pg := page (Z.to_nat (default (default_limit rev) (l_limit args)))
                 (λ _, true) (l_nextToken args) (list_plan rev i t).2 in
  (listMovies rev i args t).2 = Ok (JConnection (Some pg.1) pg.2).
Proof.
  intros Hplan Hlim. cbv zeta.
  pose proof (list_exec rev t i args) as Hex. cbv zeta in Hex.
  rewrite Hplan in Hex. rewrite (proj2 (Z.leb_gt _ _)) in Hex by lia.
  pose proof (page_unfiltered_empty
                (Z.to_nat (default (default_limit rev) (l_limit args)))
                (l_nextToken args) (list_plan rev i t).2) as Hempty.
  destruct rev; unfold listMovies, FilteredScan.listMovies, IndexQuery.listMovies,
    resolve; cbn [indexes_of list_request default_limit] in Hex, Hempty, Hlim |- *;
    rewrite Hex; cbn [snd]; [|done].
  unfold FilteredScan.ListMoviesResolver_response.
  cbn [error result result_items result_nextToken].
  destruct (page _ _ _ _).1 as [|R items] eqn:Hpg; [|done].
  cbn [length Nat.eqb]. rewrite Hempty; [done | lia | done].
Qed.

Lemma browse_collect (rev : Revision) (i : Identity) (t : Table) (limit : option Z) :
  (list_plan rev i t).1 = (λ _, true) →
  0 < default (default_limit rev) limit →
  ∀ (fuel : nat) (tok : option string),
    browse fuel (λ a, (listMovies rev i a t).2) limit tok
    = collect fuel (Z.to_nat (default (default_limit rev) limit)) (λ _, true)
              (list_plan rev i t).2 tok.
Proof.
  intros Hplan Hlim. induction fuel as [|fuel IH]; intros tok; [done|].
  cbn [browse collect].
  rewrite (list_response_unfiltered rev i {| l_limit := limit; l_nextToken := tok |} t
             Hplan Hlim).
  cbv zeta. cbn [l_limit l_nextToken].
  destruct (page _ _ _ _) as [items [k|]]; cbn [fst snd]; [|done].
  by rewrite IH.
Qed.

(** X12: in either revision, an admin who follows the resolver's tokens to
    the end receives every record of the table, and nothing else. *)
Theorem browse_admin_complete (rev : Revision) (i : Identity) (t : Table) (fuel : nat)
    (limit : option Z) :
  InGroup "Admins" i →
  0 < default (default_limit rev) limit →
  (size t < fuel)%nat →
  ∃ all : list Item,
    browse_as rev i t fuel limit = Some all
    ∧ (∀ R : Item, R ∈ all ↔ ∃ k : string, t !! k = Some R).
Proof.
  intros Hadm%inAdmins_InGroup Hlim Hfuel.
  assert (Hplan : list_plan rev i t = (λ _, true, map_to_list t)).
  { unfold list_plan. by rewrite Hadm. }
  exists (map_to_list t).*2. split.
  - unfold browse_as. rewrite browse_collect by (by rewrite ?Hplan).
    rewrite Hplan. cbn [snd].
    rewrite collect_all; [by rewrite filter_all | apply NoDup_fst_map_to_list | lia |].
    by rewrite length_map_to_list.
  - intros R. rewrite list_elem_of_fmap. split.
    + intros ([k R'] & -> & Hin). exists k. by apply elem_of_map_to_list.
    + intros [k Hk]. exists (k, R). split; [done|]. by apply elem_of_map_to_list.
Qed.

Lemma browse_admin_complete_witness :
  ∃ all : list Item,
    browse_as Rev_FilteredScan root two_movies 3 (Some 1) = Some all
    ∧ (∀ R : Item, R ∈ all ↔ ∃ k : string, two_movies !! k = Some R).
Proof.
  apply (browse_admin_complete Rev_FilteredScan root two_movies 3 (Some 1)).
  - unfold InGroup. simpl. apply list_elem_of_In. simpl. auto.
  - simpl. lia.
  - vm_compute. lia.
Defined.

(** X13: in the Query revision, a caller outside "Admins" who follows the
    resolver's tokens to the end receives exactly the records of the table
    whose [createdBy] is the caller's [sub]. *)
Theorem browse_query_complete (i : Identity) (t : Table) (fuel : nat)
    (limit : option Z) :
  ¬ InGroup "Admins" i →
  0 < default (default_limit Rev_IndexQuery) limit →
  (size t < fuel)%nat →
  ∃ owned : list Item,
    browse_as Rev_IndexQuery i t fuel limit = Some owned
    ∧ (∀ R : Item,
         R ∈ owned
         ↔ ∃ k : string, t !! k = Some R ∧ R !! "createdBy" = Some (AttrS (sub i))).
Proof.
  intros Hno Hlim Hfuel.
  assert (Hno' : inAdmins i = false).
  { apply not_true_is_false. by rewrite inAdmins_InGroup. }
  assert (Hplan : list_plan Rev_IndexQuery i t = (λ _, true, owned_rows (sub i) t)).
  { unfold list_plan. by rewrite Hno'. }
  exists (List.filter (matches (owner_expression (sub i))) (map_to_list t).*2). split.
  - unfold browse_as. rewrite browse_collect by (by rewrite ?Hplan).
    rewrite Hplan. cbn [snd].
    rewrite collect_all; [by rewrite owned_rows_items | apply owned_rows_NoDup | lia |].
    pose proof (owned_rows_length (sub i) t). lia.
  - intros R. rewrite list_elem_of_In, filter_In, <- list_elem_of_In, matches_owner.
    rewrite list_elem_of_fmap. split.
    + intros [([k R'] & -> & Hin) Hown]. exists k. split; [|done].
      by apply elem_of_map_to_list.
    + intros (k & Hk & Hown). split; [|done]. exists (k, R). split; [done|].
      by apply elem_of_map_to_list.
Qed.

Lemma browse_query_complete_witness :
  ∃ owned : list Item,
    browse_as Rev_IndexQuery bob two_movies 3 (Some 1) = Some owned
    ∧ (∀ R : Item,
         R ∈ owned
         ↔ ∃ k : string, two_movies !! k = Some R
                         ∧ R !! "createdBy" = Some (AttrS (sub bob))).
Proof.
  apply (browse_query_complete bob two_movies 3 (Some 1)).
  - unfold InGroup. simpl. intros H. apply list_elem_of_In in H. simpl in H.
    intuition discriminate.
  - simpl. lia.
  - vm_compute. lia.
Defined.

(** X14: in the Scan revision, when none of the first [limit] rows the Scan
    evaluates belongs to a caller outside "Admins", the resolver answers with
    no item and a null token, so a client that follows its tokens ends with
    an empty listing, whatever the rest of the table holds. *)
Theorem browse_scan_stops (i : Identity) (t : Table) (fuel : nat) (limit : option Z) :
  ¬ InGroup "Admins" i →
  0 < default (default_limit Rev_FilteredScan) limit →
  (∀ R : Item,
     R ∈ window (default (default_limit Rev_FilteredScan) limit) None t →
     R !! "createdBy" ≠ Some (AttrS (sub i))) →
  (0 < fuel)%nat →
  browse_as Rev_FilteredScan i t fuel limit = Some [].
Proof.
  intros Hno Hlim Hnone Hfuel.
  assert (Hno' : inAdmins i = false).
  { apply not_true_is_false. by rewrite inAdmins_InGroup. }
  destruct fuel as [|fuel]; [lia|].
  unfold browse_as. cbn [browse listMovies]. unfold FilteredScan.listMovies, resolve.
  pose proof (list_exec Rev_FilteredScan t i
                {| l_limit := limit; l_nextToken := None |}) as Hex.
  cbv zeta in Hex. cbn [indexes_of list_request l_limit l_nextToken] in Hex.
  rewrite Hex. rewrite (proj2 (Z.leb_gt _ _)) by lia.
  unfold list_plan. rewrite Hno'. cbn [fst snd].
  assert (Hnil : (page (Z.to_nat (default (default_limit Rev_FilteredScan) limit))
                       (matches (owner_expression (sub i))) None (map_to_list t)).1 = []).
  { unfold page. cbn [fst after_token].
    destruct (List.filter _ _) as [|R rest] eqn:Hf; [done|]. exfalso.
    assert (HR : In R (R :: rest)) by (by left). rewrite <- Hf in HR.
    apply filter_In in HR as [HR Hm]. apply matches_owner in Hm.
    by apply (Hnone R); [apply list_elem_of_In|]. }
  unfold FilteredScan.ListMoviesResolver_response.
  cbn [error result result_items]. by rewrite Hnil.
Qed.

Lemma browse_scan_stops_witness :
  browse_as Rev_FilteredScan bob two_movies 3 (Some 1) = Some [].
Proof.
  apply (browse_scan_stops bob two_movies 3 (Some 1)).
  - unfold InGroup. simpl. intros H. apply list_elem_of_In in H. simpl in H.
    intuition discriminate.
  - simpl. lia.
  - intros R HR. apply list_elem_of_In in HR.
    vm_compute in HR. destruct HR as [<-|[]]. vm_compute. discriminate.
  - lia.
Defined.

(** ** Group membership, again *)

(** X15: the group loop of the get, update and delete templates and the
    [contains] test of the list template decide the same thing: the caller
    has a group claim and it lists "Admins", at any position.  A caller
    without the claim is on the same footing as one with an empty list. *)
Theorem admin_tests_agree (i : Identity) :
  inAdmins i = isAdmin i
  ∧ (isAdmin i = true ↔ ∃ gs : list string, groups i = Some gs ∧ "Admins" ∈ gs)
  ∧ (groups i = None ∨ groups i = Some [] → isAdmin i = false).
Proof.
  split; [apply inAdmins_isAdmin|]. split.
  - rewrite isAdmin_InGroup. unfold InGroup. destruct (groups i) as [gs|].
    + split; [by exists gs | by intros (? & [= <-] & ?)].
    + split; [done | by intros (? & ? & ?)].
  - unfold isAdmin. by intros [->| ->].
Qed.

(** ** The two owner listings, through the resolvers *)






